(** * The item store of the DevOps FastAPI application

    A shallow embedding of [src/app.py]: the pydantic models [Item] and
    [ItemCreate], the process-wide list [items_db], and the five request
    handlers that read and mutate it.  Handlers are functions from the
    store to an outcome paired with the store they leave behind, so that
    "the store is not mutated" is a statement to prove and not a typing
    accident.  Logging has no influence on the store or on the responses
    and is left out. *)

From Stdlib Require Import PrimFloat.
From stdpp Require Import base decidable option list numbers strings pretty sorting.

Local Open Scope Z_scope.

(** ** Pydantic models *)

(** [class Item(BaseModel)]: ids are Python integers (unbounded), prices
    are floats that the store only carries around.  Two items are equal
    below when they hold the same field values (for the price: the same
    float). *)
Module Item.
Record t : Type := Build
  { id : Z;
    name : string;
    description : option string;
    price : float;
    in_stock : bool }.
End Item.

(** [class ItemCreate(BaseModel)]: the validated request body of POST and
    PUT.  A value of this record is what the handlers receive. *)
Module ItemCreate.
Record t : Type := Build
  { name : string;
    description : option string;
    price : float;
    in_stock : bool }.

(** The model's constructor as pydantic derives it from the field
    declarations: [name] and [price] are required, [description]
    defaults to [None] and [in_stock] defaults to [True].  A keyword
    that the caller leaves out is [None] here. *)
Definition init (name : string) (description : option string)
    (price : float) (in_stock : option bool) : t :=
  {| name := name;
     description := description;
     price := price;
     in_stock := default true in_stock |}.
End ItemCreate.

(** [Item(id=new_id, **item.dict())] *)
Definition Item_of (new_id : Z) (item : ItemCreate.t) : Item.t :=
  {| Item.id := new_id;
     Item.name := ItemCreate.name item;
     Item.description := ItemCreate.description item;
     Item.price := ItemCreate.price item;
     Item.in_stock := ItemCreate.in_stock item |}.

(** ** The store *)

Abbreviation store := (list Item.t).

(** The initial value of [items_db]. *)
Definition items_db : store :=
  [ Item.Build 1 "Laptop" (Some "High-performance laptop") 1200.00%float true;
    Item.Build 2 "Mouse" (Some "Wireless mouse") 25.00%float true;
    Item.Build 3 "Keyboard" (Some "Mechanical keyboard") 80.00%float false ].

(** [[i.id for i in items_db]] *)
Definition ids (db : store) : list Z := Item.id <$> db.

(** Python's [max(xs, default=d)]: [d] only when [xs] is empty. *)
Definition max_default (xs : list Z) (d : Z) : Z :=
  match xs with
  | [] => d
  | x :: xs' => foldl Z.max x xs'
  end.

(** ** Outcomes *)

(** What a handler can raise.  [IndexError] is what [list.pop] raises on
    an index out of range. *)
Inductive exn : Type :=
  | HTTPException (status_code : Z) (detail : string)
  | IndexError.

Definition handler (A : Type) : Type := store → (exn + A) * store.

Definition not_found (item_id : Z) : exn :=
  HTTPException 404 ("Item with ID " +:+ pretty item_id +:+ " not found").

(** The loop header shared by [get_item], [update_item] and
    [delete_item]: the first position, in list order, whose item has the
    requested id, together with that item. *)
Definition scan (item_id : Z) (db : store) : option (nat * Item.t) :=
  list_find (λ item, Item.id item = item_id) db.

(** [items_db.pop(idx)] *)
Definition pop (idx : nat) (db : store) : option (Item.t * store) :=
  match db !! idx with
  | Some x => Some (x, delete idx db)
  | None => None
  end.

(** ** Handlers *)

(** [GET /items] *)
Definition get_items : handler (list Item.t) :=
  λ db, (inr db, db).

(** [GET /items/{item_id}] *)
Definition get_item (item_id : Z) : handler Item.t :=
  λ db,
    match scan item_id db with
    | Some (_, item) => (inr item, db)
    | None => (inl (not_found item_id), db)
    end.

(** [POST /items] *)
Definition create_item (item : ItemCreate.t) : handler Item.t :=
  λ db,
    let new_id := max_default (ids db) 0 + 1 in
    let new_item := Item_of new_id item in
    (inr new_item, db ++ [new_item]).

(** [PUT /items/{item_id}] *)
Definition update_item (item_id : Z) (item : ItemCreate.t) : handler Item.t :=
  λ db,
    match scan item_id db with
    | Some (idx, _) =>
        let updated_item := Item_of item_id item in
        (inr updated_item, <[idx := updated_item]> db)
    | None => (inl (not_found item_id), db)
    end.

(** The body of a successful DELETE response. *)
Record Deleted : Type := mkDeleted
  { message : string;
    item : Item.t }.

(** [DELETE /items/{item_id}] *)
Definition delete_item (item_id : Z) : handler Deleted :=
  λ db,
    match scan item_id db with
    | Some (idx, _) =>
        match pop idx db with
        | Some (deleted_item, db') =>
            (inr (mkDeleted
                    ("Item " +:+ pretty item_id +:+ " deleted successfully")
                    deleted_item),
             db')
        | None => (inl IndexError, db)
        end
    | None => (inl (not_found item_id), db)
    end.

(** ** Requests and runs

    The routes of the item store, and the effect of serving a list of
    requests one after the other on the process-wide store. *)

Inductive request : Type :=
  | GET_items
  | GET_item (item_id : Z)
  | POST_items (item : ItemCreate.t)
  | PUT_item (item_id : Z) (item : ItemCreate.t)
  | DELETE_item (item_id : Z).

Inductive body : Type :=
  | ItemList (l : list Item.t)
  | AnItem (i : Item.t)
  | Deletion (d : Deleted).

Definition response : Type := exn + body.

Definition respond {A} (wrap : A → body) (h : handler A) : handler body :=
  λ db, let '(o, db') := h db in (sum_map id wrap o, db').

Definition dispatch (r : request) : handler body :=
  match r with
  | GET_items => respond ItemList get_items
  | GET_item item_id => respond AnItem (get_item item_id)
  | POST_items item => respond AnItem (create_item item)
  | PUT_item item_id item => respond AnItem (update_item item_id item)
  | DELETE_item item_id => respond Deletion (delete_item item_id)
  end.

Fixpoint run (rs : list request) (db : store) : list response * store :=
  match rs with
  | [] => ([], db)
  | r :: rs' =>
      let '(o, db1) := dispatch r db in
      let '(os, db2) := run rs' db1 in
      (o :: os, db2)
  end.

Definition final (rs : list request) (db : store) : store := snd (run rs db).

(** What a run did to the set of ids: an id was handed out by a create,
    or the item holding it was removed by a delete. *)
Inductive event : Type :=
  | Created (n : Z)
  | Removed (n : Z).

Definition event_of (r : request) (o : response) : list event :=
  match r, o with
  | POST_items _, inr (AnItem i) => [Created (Item.id i)]
  | DELETE_item _, inr (Deletion d) => [Removed (Item.id (item d))]
  | _, _ => []
  end.

Fixpoint history (rs : list request) (db : store) : list event :=
  match rs with
  | [] => []
  | r :: rs' =>
      let '(o, db1) := dispatch r db in
      event_of r o ++ history rs' db1
  end.

(** ** Vocabulary of the specification *)

(** [m] is "max(existing ids, default d)". *)
Definition is_max_default (xs : list Z) (d m : Z) : Prop :=
  match xs with
  | [] => m = d
  | _ :: _ => m ∈ xs ∧ Forall (λ x, x ≤ m) xs
  end.

(** The outcome is the 404 that the handlers raise for an unknown id. *)
Definition NotFound {A} (o : exn + A) : Prop :=
  ∃ detail, o = inl (HTTPException 404 detail).

(** "Some previous Create produced that id and no subsequent Delete
    removed it", over the events of a run. *)
Definition created_and_kept (h : list event) (n : Z) : Prop :=
  ∃ h1 h2, h = h1 ++ Created n :: h2 ∧ Removed n ∉ h2.

(** The same, counting the ids [init] of the initial store as produced
    before the run started. *)
Definition present_and_kept (init : list Z) (h : list event) (n : Z) : Prop :=
  (n ∈ init ∧ Removed n ∉ h) ∨ created_and_kept h n.

(** The request is a DELETE aimed at the item that holds the highest id
    of a non-empty store. *)
Definition deletes_max (r : request) (db : store) : bool :=
  match r with
  | DELETE_item n =>
      bool_decide (ids db ≠ [] ∧ n = max_default (ids db) 0)
  | _ => false
  end.

(** No request of the run deletes the item holding the highest id at the
    moment it is served. *)
Fixpoint spares_max (rs : list request) (db : store) : bool :=
  match rs with
  | [] => true
  | r :: rs' => negb (deletes_max r db) && spares_max rs' (snd (dispatch r db))
  end.

(** The name carried by the body of a request, for the routes with one. *)
Definition named (r : request) : Prop :=
  match r with
  | POST_items item | PUT_item _ item => ItemCreate.name item ≠ ""
  | _ => True
  end.

(** An id lies strictly below some id of the store. *)
Definition below_stored (db : store) (n : Z) : Prop :=
  ∃ m, m ∈ ids db ∧ n < m.

(** A response that lists items lists them with pairwise distinct ids. *)
Definition lists_unique_ids (o : response) : Prop :=
  match o with
  | inr (ItemList l) => NoDup (ids l)
  | _ => True
  end.

(** Every item has a name other than the empty text. *)
Definition all_named (db : store) : Prop :=
  Forall (λ i, Item.name i ≠ "") db.

(** The change in the number of stored items that an event records, and
    the net change over a history. *)
Definition delta (e : event) : Z :=
  match e with
  | Created _ => 1
  | Removed _ => -1
  end.

Definition net (h : list event) : Z := foldr (λ e acc, delta e + acc) 0 h.

(** ** Scenario of the test suite, replayed on the model *)

Example get_item_1 :
  get_item 1 items_db =
  (inr (Item.Build 1 "Laptop" (Some "High-performance laptop") 1200.00%float true),
   items_db).
Proof. reflexivity. Qed.

Example get_item_999 :
  get_item 999 items_db =
  (inl (HTTPException 404 "Item with ID 999 not found"), items_db).
Proof. vm_compute. reflexivity. Qed.

Example create_monitor :
  fst (create_item (ItemCreate.init "Monitor" None 350.00%float None) items_db)
  = inr (Item.Build 4 "Monitor" None 350.00%float true).
Proof. reflexivity. Qed.

Example update_laptop :
  fst (update_item 1 (ItemCreate.init "Updated Laptop" None 1500.00%float (Some false))
         items_db)
  = inr (Item.Build 1 "Updated Laptop" None 1500.00%float false).
Proof. reflexivity. Qed.

Example delete_then_get :
  ids (final [DELETE_item 1] items_db) = [2; 3] ∧
  NotFound (fst (get_item 1 (final [DELETE_item 1] items_db))).
Proof. split; [reflexivity | by eexists]. Qed.

Example delete_999 : NotFound (fst (delete_item 999 items_db)).
Proof. by eexists. Qed.

(** ** The linear scan *)

Section Scan.
Implicit Types (db : store) (item_id : Z).

Lemma scan_Some db item_id idx x :
  scan item_id db = Some (idx, x) →
  ∃ l1 l2, db = l1 ++ x :: l2 ∧ length l1 = idx ∧
           Item.id x = item_id ∧ item_id ∉ ids l1.
Proof.
  unfold scan. intros (Hidx & Hid & Hleast)%list_find_Some.
  exists (take idx db), (drop (S idx) db).
  assert (idx < length db)%nat as Hlt by eauto using lookup_lt_Some.
  split_and!; [| rewrite length_take; lia | done |].
  - by rewrite <- (take_drop_middle db idx x) at 1.
  - unfold ids. intros (y & Hy & Hin)%list_elem_of_fmap.
    apply list_elem_of_lookup in Hin as [j Hj].
    pose proof (lookup_lt_Some _ _ _ Hj) as Hjlt.
    rewrite length_take in Hjlt.
    rewrite lookup_take_lt in Hj by lia.
    apply (Hleast j y); [done | lia | done].
Qed.

Lemma scan_None db item_id : scan item_id db = None ↔ item_id ∉ ids db.
Proof.
  unfold scan, ids. rewrite list_find_None, Forall_forall. split.
  - intros H (y & -> & Hin)%list_elem_of_fmap. by apply (H y).
  - intros H y Hin Hid. apply H, list_elem_of_fmap. eauto.
Qed.

Lemma scan_is_Some db item_id : is_Some (scan item_id db) ↔ item_id ∈ ids db.
Proof.
  rewrite <- not_eq_None_Some, scan_None.
  split; [apply dec_stable | auto].
Qed.

Lemma scan_middle l1 x l2 :
  Item.id x ∉ ids l1 →
  scan (Item.id x) (l1 ++ x :: l2) = Some (length l1, x).
Proof.
  intros Hl1. unfold scan. apply list_find_Some. split_and!.
  - by rewrite list_lookup_middle.
  - done.
  - intros j y Hj Hlt Hid. apply Hl1. rewrite <- Hid.
    rewrite lookup_app_l in Hj by done.
    apply list_elem_of_fmap. eauto using list_elem_of_lookup_2.
Qed.

Lemma ids_app l1 l2 : ids (l1 ++ l2) = ids l1 ++ ids l2.
Proof. apply fmap_app. Qed.
End Scan.

(** ** Python's [max] with a default *)

Section Max.
Implicit Types (xs : list Z).

Lemma foldl_max_le xs a : a ≤ foldl Z.max a xs ∧ Forall (λ x, x ≤ foldl Z.max a xs) xs.
Proof.
  revert a. induction xs as [|x xs IH]; intros a; simpl.
  - split; [lia | constructor].
  - destruct (IH (Z.max a x)) as [H1 H2]. split; [lia |].
    constructor; [lia | done].
Qed.

Lemma foldl_max_elem xs a : foldl Z.max a xs = a ∨ foldl Z.max a xs ∈ xs.
Proof.
  revert a. induction xs as [|x xs IH]; intros a; simpl; [by left |].
  destruct (IH (Z.max a x)) as [H | H].
  - rewrite H. destruct (Z.max_spec a x) as [[_ ->] | [_ ->]].
    + right. left.
    + by left.
  - right. by right.
Qed.

Lemma max_default_spec xs d : is_max_default xs d (max_default xs d).
Proof.
  destruct xs as [|x xs]; simpl; [done |].
  destruct (foldl_max_le xs x) as [H1 H2]. split.
  - destruct (foldl_max_elem xs x) as [-> | H]; [left | by right].
  - by constructor.
Qed.

Lemma is_max_default_unique xs d m m' :
  is_max_default xs d m → is_max_default xs d m' → m = m'.
Proof.
  destruct xs as [|x xs]; simpl; [congruence |].
  intros [Hin Hle] [Hin' Hle']. rewrite Forall_forall in Hle, Hle'.
  apply Hle' in Hin. apply Hle in Hin'. lia.
Qed.

Lemma max_default_ge xs d x : x ∈ xs → x ≤ max_default xs d.
Proof.
  intros Hin. pose proof (max_default_spec xs d) as H.
  destruct xs as [|y ys]; [by apply not_elem_of_nil in Hin |].
  destruct H as [_ H]. rewrite Forall_forall in H. by apply H.
Qed.

Lemma max_default_elem xs d : xs ≠ [] → max_default xs d ∈ xs.
Proof.
  intros Hne. pose proof (max_default_spec xs d) as H.
  destruct xs as [|y ys]; [done | apply H].
Qed.
End Max.

Lemma new_id_fresh (db : store) : max_default (ids db) 0 + 1 ∉ ids db.
Proof. intros H%(max_default_ge _ 0). lia. Qed.

(** ** The handlers on a store split around the first match *)

Section Handlers.
Implicit Types (db l : store) (item_id : Z) (x : Item.t).

Lemma split_at_id db item_id :
  item_id ∈ ids db →
  ∃ l1 x l2, db = l1 ++ x :: l2 ∧ Item.id x = item_id ∧ item_id ∉ ids l1.
Proof.
  intros [[idx x] Hscan]%scan_is_Some.
  apply scan_Some in Hscan as (l1 & l2 & ? & ? & ? & ?). eauto 7.
Qed.

Lemma get_item_middle l1 x l2 :
  Item.id x ∉ ids l1 →
  get_item (Item.id x) (l1 ++ x :: l2) = (inr x, l1 ++ x :: l2).
Proof. intros H. unfold get_item. by rewrite scan_middle. Qed.

Lemma update_item_middle l1 x l2 item :
  Item.id x ∉ ids l1 →
  update_item (Item.id x) item (l1 ++ x :: l2)
  = (inr (Item_of (Item.id x) item), l1 ++ Item_of (Item.id x) item :: l2).
Proof.
  intros H. unfold update_item. rewrite scan_middle by done.
  by rewrite insert_app_r_alt, Nat.sub_diag.
Qed.

Lemma delete_item_middle l1 x l2 :
  Item.id x ∉ ids l1 →
  delete_item (Item.id x) (l1 ++ x :: l2)
  = (inr (mkDeleted ("Item " +:+ pretty (Item.id x) +:+ " deleted successfully") x),
     l1 ++ l2).
Proof.
  intros H. unfold delete_item, pop. rewrite scan_middle by done.
  by rewrite list_lookup_middle, delete_middle.
Qed.

Lemma get_item_absent db item_id :
  item_id ∉ ids db → get_item item_id db = (inl (not_found item_id), db).
Proof. intros H%scan_None. unfold get_item. by rewrite H. Qed.

Lemma update_item_absent db item_id item :
  item_id ∉ ids db → update_item item_id item db = (inl (not_found item_id), db).
Proof. intros H%scan_None. unfold update_item. by rewrite H. Qed.

Lemma delete_item_absent db item_id :
  item_id ∉ ids db → delete_item item_id db = (inl (not_found item_id), db).
Proof. intros H%scan_None. unfold delete_item. by rewrite H. Qed.

Lemma not_found_NotFound {A} item_id : NotFound (A:=A) (inl (not_found item_id)).
Proof. by eexists. Qed.

(** [list.pop] is only ever called with an index the scan has just
    produced, so [delete_item] never raises [IndexError]. *)
Lemma delete_item_no_IndexError db item_id :
  fst (delete_item item_id db) ≠ inl IndexError.
Proof.
  destruct (decide (item_id ∈ ids db)) as [Hin | Hnin].
  - apply split_at_id in Hin as (l1 & x & l2 & -> & <- & Hl1).
    by rewrite delete_item_middle.
  - by rewrite delete_item_absent.
Qed.

(** The ids left by the handlers that write. *)
Lemma ids_create_item db item :
  ids (snd (create_item item db)) = ids db ++ [max_default (ids db) 0 + 1].
Proof. unfold create_item. simpl. by rewrite ids_app. Qed.

Lemma ids_update_item db item_id item :
  ids (snd (update_item item_id item db)) = ids db.
Proof.
  destruct (decide (item_id ∈ ids db)) as [Hin | Hnin].
  - apply split_at_id in Hin as (l1 & x & l2 & -> & <- & Hl1).
    rewrite update_item_middle by done. simpl. by rewrite !ids_app.
  - by rewrite update_item_absent.
Qed.

Lemma ids_delete_item db item_id :
  NoDup (ids db) →
  NoDup (ids (snd (delete_item item_id db))) ∧
  ∀ n, n ∈ ids (snd (delete_item item_id db)) ↔ n ∈ ids db ∧ n ≠ item_id.
Proof.
  intros Hnd. destruct (decide (item_id ∈ ids db)) as [Hin | Hnin].
  - apply split_at_id in Hin as (l1 & x & l2 & -> & <- & Hl1).
    rewrite delete_item_middle by done. simpl.
    rewrite ids_app in *. change (ids (x :: l2)) with (Item.id x :: ids l2) in Hnd.
    apply NoDup_app in Hnd as (Hnd1 & Hdisj & [Hx Hnd2]%NoDup_cons).
    split.
    + apply NoDup_app. split_and!; [done | | done].
      intros n Hn Hn2. apply (Hdisj n Hn). by right.
    + intros n. rewrite ?ids_app, !elem_of_app.
      change (ids (x :: l2)) with (Item.id x :: ids l2).
      rewrite elem_of_cons. split.
      * intros [Hn | Hn]; (split; [tauto | congruence]).
      * intros [[Hn | [Hn | Hn]] Hne]; tauto.
  - rewrite delete_item_absent by done. simpl. split; [done |].
    intros n. split; [| tauto]. intros Hn. split; [done | congruence].
Qed.
End Handlers.

(** ** Runs *)

Section Runs.
Implicit Types (db : store) (r : request) (rs : list request).

Lemma snd_respond {A} (wrap : A → body) (h : handler A) db :
  snd (respond wrap h db) = snd (h db).
Proof. unfold respond. by destruct (h db). Qed.

Lemma fst_respond {A} (wrap : A → body) (h : handler A) db :
  fst (respond wrap h db) = sum_map id wrap (fst (h db)).
Proof. unfold respond. by destruct (h db). Qed.

Lemma final_nil db : final [] db = db.
Proof. done. Qed.

Lemma final_cons r rs db : final (r :: rs) db = final rs (snd (dispatch r db)).
Proof.
  unfold final. simpl. destruct (dispatch r db) as [o db1]. simpl.
  by destruct (run rs db1).
Qed.

Lemma history_cons r rs db :
  history (r :: rs) db
  = event_of r (fst (dispatch r db)) ++ history rs (snd (dispatch r db)).
Proof. simpl. by destruct (dispatch r db). Qed.

Lemma dispatch_NoDup r db :
  NoDup (ids db) → NoDup (ids (snd (dispatch r db))).
Proof.
  intros Hnd. destruct r as [| n | item | n item | n]; unfold dispatch;
    rewrite snd_respond.
  - done.
  - unfold get_item. by destruct (scan n db) as [[??]|].
  - rewrite ids_create_item. apply NoDup_app. split_and!; [done | |].
    + intros x Hx ->%list_elem_of_singleton. by apply (new_id_fresh db).
    + apply NoDup_singleton.
  - by rewrite ids_update_item.
  - by apply ids_delete_item.
Qed.

Lemma final_NoDup rs db : NoDup (ids db) → NoDup (ids (final rs db)).
Proof.
  revert db. induction rs as [|r rs IH]; intros db Hnd; [done |].
  rewrite final_cons. by apply IH, dispatch_NoDup.
Qed.

Lemma items_db_NoDup : NoDup (ids items_db).
Proof. by apply (bool_decide_unpack _). Qed.
End Runs.

(** ** Properties of the handlers *)

(** C1: on every store, create_item gives the new item the id
    max(existing ids, default 0) + 1, copies the supplied fields with
    in_stock set to true when it is left out, appends the item at the end
    of the store and returns it; on the empty store the id is 1. *)
Theorem create_item_assigns_next_id (db : store) name description price in_stock :
  (∃ m, is_max_default (ids db) 0 m ∧
        (let new_item :=
           Item.Build (m + 1) name description price (default true in_stock) in
         create_item (ItemCreate.init name description price in_stock) db
         = (inr new_item, db ++ [new_item]))) ∧
  (∃ new_item,
      fst (create_item (ItemCreate.init name description price None) db)
      = inr new_item ∧ Item.in_stock new_item = true) ∧
  (∃ new_item,
      create_item (ItemCreate.init name description price in_stock) []
      = (inr new_item, [new_item]) ∧ Item.id new_item = 1).
Proof.
  split_and!.
  - exists (max_default (ids db) 0). split; [apply max_default_spec | done].
  - by eexists.
  - by eexists.
Qed.

(** C9: get_items and get_item leave the store as they found it, whether
    or not the requested id is present. *)
Theorem reads_leave_store_unchanged (db : store) (item_id : Z) :
  snd (get_items db) = db ∧
  snd (get_item item_id db) = db ∧
  final [GET_items; GET_item item_id] db = db.
Proof.
  assert (∀ db', snd (get_item item_id db') = db') as Hget.
  { intros db'. unfold get_item. by destruct (scan item_id db') as [[??]|]. }
  split_and!; [done | done |].
  rewrite !final_cons, final_nil. unfold dispatch. by rewrite !snd_respond, Hget.
Qed.

(** C7: on every store, creating an item and then getting the id that the
    create returned succeeds, and the item read back is the created one:
    the assigned id together with the fields that were supplied. *)
Theorem create_then_get_roundtrip (db : store) (X : ItemCreate.t) :
  ∃ created got,
    fst (create_item X db) = inr created ∧
    fst (get_item (Item.id created) (snd (create_item X db))) = inr got ∧
    got = created ∧
    Item.name got = ItemCreate.name X ∧
    Item.description got = ItemCreate.description X ∧
    Item.price got = ItemCreate.price X ∧
    Item.in_stock got = ItemCreate.in_stock X.
Proof.
  set (new_item := Item_of (max_default (ids db) 0 + 1) X).
  exists new_item, new_item. split_and!; try done.
  change (snd (create_item X db)) with (db ++ [new_item]).
  rewrite get_item_middle; [done |]. apply new_id_fresh.
Qed.

(** C4: when the store holds an item with the given id, update_item puts
    an item made of that id and the supplied fields at the position of the
    first such item, leaves every other position alone and returns the new
    item; nothing of the old item survives, so a description left out
    becomes None and an in_stock left out becomes true. *)
Theorem update_item_replaces_in_place (db : store) (item_id : Z)
    name description price in_stock :
  item_id ∈ ids db →
  (∃ l1 old l2,
      db = l1 ++ old :: l2 ∧ Item.id old = item_id ∧ (item_id ∉ ids l1) ∧
      (let new := Item.Build item_id name description price (default true in_stock) in
       update_item item_id (ItemCreate.init name description price in_stock) db
       = (inr new, l1 ++ new :: l2))) ∧
  (∃ new,
      fst (update_item item_id (ItemCreate.init name None price None) db) = inr new ∧
      Item.id new = item_id ∧ Item.description new = None ∧
      Item.in_stock new = true).
Proof.
  intros (l1 & old & l2 & -> & <- & Hl1)%split_at_id. split.
  - exists l1, old, l2. split_and!; try done. by rewrite update_item_middle.
  - eexists. rewrite update_item_middle by done. done.
Qed.

Lemma update_item_replaces_in_place_witness :
  1 ∈ ids items_db ∧
  (∃ l1 old l2,
      items_db = l1 ++ old :: l2 ∧ Item.id old = 1 ∧ (1 ∉ ids l1) ∧
      (let new := Item.Build 1 "Updated Laptop" None 1500.00%float (default true (Some false)) in
       update_item 1 (ItemCreate.init "Updated Laptop" None 1500.00%float (Some false)) items_db
       = (inr new, l1 ++ new :: l2))) ∧
  (∃ new,
      fst (update_item 1 (ItemCreate.init "Updated Laptop" None 1500.00%float None) items_db)
      = inr new ∧
      Item.id new = 1 ∧ Item.description new = None ∧ Item.in_stock new = true).
Proof.
  split.
  - vm_compute. left.
  - apply (update_item_replaces_in_place items_db 1). vm_compute. left.
Defined.

(** C10: when the store holds the given id, a second update_item with the
    same id and fields returns the same item as the first and leaves the
    store as the first left it. *)
Theorem update_item_idempotent (db : store) (item_id : Z) (item : ItemCreate.t) :
  item_id ∈ ids db →
  ∃ updated db',
    update_item item_id item db = (inr updated, db') ∧
    update_item item_id item db' = (inr updated, db').
Proof.
  intros (l1 & old & l2 & -> & <- & Hl1)%split_at_id.
  do 2 eexists. rewrite update_item_middle by done. split; [done |].
  by rewrite (update_item_middle l1 (Item_of (Item.id old) item) l2).
Qed.

Lemma update_item_idempotent_witness :
  2 ∈ ids items_db ∧
  ∃ updated db',
    update_item 2 (ItemCreate.init "Trackball" None 30.00%float None) items_db
    = (inr updated, db') ∧
    update_item 2 (ItemCreate.init "Trackball" None 30.00%float None) db'
    = (inr updated, db').
Proof.
  split.
  - vm_compute. right. left.
  - apply (update_item_idempotent items_db 2). vm_compute. right. left.
Defined.

(** ** Invariants of runs from the seed *)

Lemma run_lists_unique_ids (rs : list request) (db : store) :
  NoDup (ids db) → Forall lists_unique_ids (fst (run rs db)).
Proof.
  revert db. induction rs as [|r rs IH]; intros db Hnd; simpl; [constructor |].
  pose proof (dispatch_NoDup r db Hnd) as Hnd1.
  assert (lists_unique_ids (fst (dispatch r db))) as Hr.
  { destruct r; unfold dispatch; rewrite fst_respond; simpl; try done.
    - by destruct (fst (get_item _ _)).
    - by destruct (fst (update_item _ _ _)).
    - by destruct (fst (delete_item _ _)). }
  destruct (dispatch r db) as [o db1]. specialize (IH db1 Hnd1).
  destruct (run rs db1) as [os db2]. by constructor.
Qed.

(** C2: after any list of requests served from the seed store, no two
    stored items share an id; every listing returned along the way, and
    the listing of the final store, has pairwise distinct ids. *)
Theorem ids_unique_invariant (rs : list request) :
  NoDup (ids (final rs items_db)) ∧
  Forall lists_unique_ids (fst (run rs items_db)) ∧
  ∃ l, fst (get_items (final rs items_db)) = inr l ∧ NoDup (ids l).
Proof.
  pose proof (final_NoDup rs items_db items_db_NoDup) as Hnd.
  split_and!; [done | apply run_lists_unique_ids, items_db_NoDup |].
  by exists (final rs items_db).
Qed.

Lemma NotFound_inr {A} (a : A) : ¬ NotFound (inr a : exn + A).
Proof. by intros [? ?]. Qed.

Lemma delete_twice (db : store) (item_id : Z) :
  NoDup (ids db) →
  delete_item item_id (snd (delete_item item_id db))
  = (inl (not_found item_id), snd (delete_item item_id db)).
Proof.
  intros Hnd. apply delete_item_absent.
  destruct (ids_delete_item db item_id Hnd) as [_ H]. rewrite H. tauto.
Qed.

(** C3: get_item, update_item and delete_item answer 404 exactly when no
    stored item has the requested id, and a 404 leaves the store as it
    was; on any store reached from the seed, deleting the same id a second
    time answers 404. *)
Theorem not_found_iff_absent (db : store) (item_id : Z) (item : ItemCreate.t) :
  (NotFound (fst (get_item item_id db)) ↔ item_id ∉ ids db) ∧
  (NotFound (fst (update_item item_id item db)) ↔ item_id ∉ ids db) ∧
  (NotFound (fst (delete_item item_id db)) ↔ item_id ∉ ids db) ∧
  (NotFound (fst (get_item item_id db)) → snd (get_item item_id db) = db) ∧
  (NotFound (fst (update_item item_id item db)) →
   snd (update_item item_id item db) = db) ∧
  (NotFound (fst (delete_item item_id db)) → snd (delete_item item_id db) = db) ∧
  (∀ rs, NotFound
           (fst (delete_item item_id
                   (snd (delete_item item_id (final rs items_db)))))).
Proof.
  assert (∀ {A} (h : handler A),
            (item_id ∉ ids db → h db = (inl (not_found item_id), db)) →
            (item_id ∈ ids db → ∃ a, fst (h db) = inr a) →
            (NotFound (fst (h db)) ↔ item_id ∉ ids db) ∧
            (NotFound (fst (h db)) → snd (h db) = db)) as Hcase.
  { intros A h Habs Hpres.
    destruct (decide (item_id ∈ ids db)) as [Hin | Hnin].
    - destruct (Hpres Hin) as [a Ha]. rewrite Ha.
      split; [split |]; intros H; try done; by apply NotFound_inr in H.
    - rewrite (Habs Hnin). simpl. split; [split |]; try done.
      intros _. apply not_found_NotFound. }
  destruct (Hcase _ (get_item item_id)) as [Hg1 Hg2].
  { apply get_item_absent. }
  { intros (l1 & x & l2 & -> & <- & Hl1)%split_at_id.
    rewrite get_item_middle by done. eauto. }
  destruct (Hcase _ (update_item item_id item)) as [Hu1 Hu2].
  { apply update_item_absent. }
  { intros (l1 & x & l2 & -> & <- & Hl1)%split_at_id.
    rewrite update_item_middle by done. eauto. }
  destruct (Hcase _ (delete_item item_id)) as [Hd1 Hd2].
  { apply delete_item_absent. }
  { intros (l1 & x & l2 & -> & <- & Hl1)%split_at_id.
    rewrite delete_item_middle by done. eauto. }
  split_and!; try done.
  intros rs. rewrite delete_twice by apply final_NoDup, items_db_NoDup.
  apply not_found_NotFound.
Qed.

Lemma dispatch_all_named (r : request) (db : store) :
  named r → all_named db → all_named (snd (dispatch r db)).
Proof.
  unfold all_named. intros Hr Hdb.
  destruct r as [| n | item | n item | n]; unfold dispatch; rewrite snd_respond.
  - done.
  - unfold get_item. by destruct (scan n db) as [[??]|].
  - simpl. apply Forall_app. split; [done |]. by constructor.
  - unfold update_item. destruct (scan n db) as [[idx ?]|]; [| done].
    simpl. by apply Forall_insert.
  - unfold delete_item, pop. destruct (scan n db) as [[idx ?]|]; [| done].
    destruct (db !! idx); [| done]. simpl. by apply Forall_delete.
Qed.

(** C8, as the code has it: the store does not look at names, it keeps
    the name each request carries.  If every create and update request of
    a run from the seed carries a non-empty name, every stored item has a
    non-empty name. *)
Theorem names_nonempty_if_requests_named (rs : list request) :
  Forall named rs → all_named (final rs items_db).
Proof.
  assert (all_named items_db) as Hseed by (repeat constructor; done).
  revert Hseed. generalize items_db.
  induction rs as [|r rs IH]; intros db Hdb Hrs; [done |].
  apply Forall_cons in Hrs as [Hr Hrs].
  rewrite final_cons. by apply IH; [apply dispatch_all_named |].
Qed.

Lemma names_nonempty_if_requests_named_witness :
  Forall named
    [POST_items (ItemCreate.init "Monitor" None 350.00%float None);
     PUT_item 1 (ItemCreate.init "Updated Laptop" None 1500.00%float (Some false));
     DELETE_item 2] ∧
  all_named
    (final
       [POST_items (ItemCreate.init "Monitor" None 350.00%float None);
        PUT_item 1 (ItemCreate.init "Updated Laptop" None 1500.00%float (Some false));
        DELETE_item 2]
       items_db).
Proof.
  assert (Forall named
    [POST_items (ItemCreate.init "Monitor" None 350.00%float None);
     PUT_item 1 (ItemCreate.init "Updated Laptop" None 1500.00%float (Some false));
     DELETE_item 2]) as H.
  { repeat constructor; simpl; discriminate. }
  split; [exact H | exact (names_nonempty_if_requests_named _ H)].
Defined.

(** C8, as the claim is worded, fails: a create whose name is the empty
    text is served like any other and its item is stored. *)
Lemma empty_name_is_stored :
  ¬ all_named (final [POST_items (ItemCreate.init "" None 1.00%float None)] items_db).
Proof.
  intros H. unfold all_named in H. rewrite Forall_forall in H.
  apply (H (Item.Build 4 "" None 1.00%float true)); [| reflexivity].
  vm_compute. do 3 right. left.
Qed.

(** ** Histories *)

(** What one request does to the ids of a store without duplicates:
    nothing, or it appends the next id, or it removes the requested id. *)
Lemma dispatch_cases (r : request) (db : store) :
  NoDup (ids db) →
  (event_of r (fst (dispatch r db)) = [] ∧ ids (snd (dispatch r db)) = ids db) ∨
  (event_of r (fst (dispatch r db)) = [Created (max_default (ids db) 0 + 1)] ∧
   ids (snd (dispatch r db)) = ids db ++ [max_default (ids db) 0 + 1]) ∨
  (∃ k, r = DELETE_item k ∧ k ∈ ids db ∧
        event_of r (fst (dispatch r db)) = [Removed k] ∧
        ∀ n, n ∈ ids (snd (dispatch r db)) ↔ n ∈ ids db ∧ n ≠ k).
Proof.
  intros Hnd.
  destruct r as [| n | item | n item | n]; unfold dispatch;
    rewrite fst_respond, snd_respond.
  - by left.
  - left. unfold get_item. by destruct (scan n db) as [[??]|].
  - right. left. by rewrite ids_create_item.
  - left. rewrite ids_update_item. split; [| done].
    by destruct (fst (update_item n item db)).
  - destruct (decide (n ∈ ids db)) as [Hin | Hnin].
    + right. right. exists n. split_and!; [done | done | |].
      * apply split_at_id in Hin as (l1 & x & l2 & -> & <- & Hl1).
        by rewrite delete_item_middle.
      * by apply ids_delete_item.
    + left. by rewrite delete_item_absent.
Qed.

Section Kept.
Implicit Types (h : list event) (n m : Z).

Lemma created_and_kept_nil n : ¬ created_and_kept [] n.
Proof. intros (h1 & h2 & H & _). by destruct h1. Qed.

Lemma created_and_kept_Created m h n :
  created_and_kept (Created m :: h) n
  ↔ (m = n ∧ Removed n ∉ h) ∨ created_and_kept h n.
Proof.
  split.
  - intros (h1 & h2 & Heq & Hkept). destruct h1 as [|e h1]; simplify_eq/=.
    + by left.
    + right. by exists h1, h2.
  - intros [[-> Hkept] | (h1 & h2 & -> & Hkept)].
    + by exists [], h.
    + by exists (Created m :: h1), h2.
Qed.

Lemma created_and_kept_Removed m h n :
  created_and_kept (Removed m :: h) n ↔ created_and_kept h n.
Proof.
  split.
  - intros (h1 & h2 & Heq & Hkept). destruct h1 as [|e h1]; simplify_eq/=.
    by exists h1, h2.
  - intros (h1 & h2 & -> & Hkept). by exists (Removed m :: h1), h2.
Qed.

(** One request moves the initial ids and the history in step. *)
Lemma present_and_kept_step (r : request) (db : store) h n :
  NoDup (ids db) →
  present_and_kept (ids (snd (dispatch r db))) h n
  ↔ present_and_kept (ids db) (event_of r (fst (dispatch r db)) ++ h) n.
Proof.
  intros Hnd. unfold present_and_kept.
  destruct (dispatch_cases r db Hnd)
    as [[-> ->] | [[-> ->] | (k & -> & Hk & -> & Hids)]]; simpl.
  - done.
  - rewrite created_and_kept_Created, elem_of_app, list_elem_of_singleton.
    rewrite not_elem_of_cons. split.
    + intros [[[Hn | ->] Hkept] | Hc]; [left | right; left | right; right]; done.
    + intros [[Hn [_ Hkept]] | [[<- Hkept] | Hc]];
        [left | left | right]; auto.
  - rewrite created_and_kept_Removed, Hids, not_elem_of_cons. split.
    + intros [[[Hn Hne] Hkept] | Hc]; [left | by right].
      split_and!; [done | congruence | done].
    + intros [[Hn [Hne Hkept]] | Hc]; [left | by right].
      split_and!; [done | congruence | done].
Qed.

Lemma final_ids_present_and_kept (rs : list request) (db : store) n :
  NoDup (ids db) →
  n ∈ ids (final rs db) ↔ present_and_kept (ids db) (history rs db) n.
Proof.
  revert db. induction rs as [|r rs IH]; intros db Hnd.
  - rewrite final_nil. unfold present_and_kept. simpl. split.
    + intros Hn. left. split; [done | apply not_elem_of_nil].
    + intros [[Hn _] | Hc]; [done | by apply created_and_kept_nil in Hc].
  - rewrite final_cons, history_cons, IH by by apply dispatch_NoDup.
    by apply present_and_kept_step.
Qed.
End Kept.

Lemma get_item_succeeds_iff (db : store) (item_id : Z) :
  (∃ i, fst (get_item item_id db) = inr i) ↔ item_id ∈ ids db.
Proof.
  split.
  - intros [i Hi]. destruct (decide (item_id ∈ ids db)) as [| Hnin]; [done |].
    by rewrite get_item_absent in Hi.
  - intros (l1 & x & l2 & -> & <- & Hl1)%split_at_id.
    rewrite get_item_middle by done. eauto.
Qed.

(** C6, as the code has it: after any list of requests served from the
    seed store, get_item returns an item for an id exactly when the id is
    one of the seed ids and no delete of the run removed it, or some create
    of the run produced it and no later delete removed it; update_item
    returns the id it was asked for and leaves the ids of the store as
    they were. *)
Theorem get_item_iff_present_and_kept (rs : list request) (item_id : Z) :
  ((∃ i, fst (get_item item_id (final rs items_db)) = inr i)
   ↔ present_and_kept [1; 2; 3] (history rs items_db) item_id) ∧
  (∀ k item, ids (snd (update_item k item (final rs items_db)))
             = ids (final rs items_db)) ∧
  (∀ k item, k ∈ ids (final rs items_db) ↔
             ∃ i, fst (update_item k item (final rs items_db)) = inr i ∧ Item.id i = k).
Proof.
  split_and!.
  - rewrite get_item_succeeds_iff.
    apply (final_ids_present_and_kept rs items_db), items_db_NoDup.
  - intros k item. apply ids_update_item.
  - intros k item. split.
    + intros (l1 & x & l2 & -> & <- & Hl1)%split_at_id.
      rewrite update_item_middle by done. eauto.
    + intros (i & Hi & _). destruct (decide (k ∈ ids (final rs items_db))); [done |].
      by rewrite update_item_absent in Hi.
Qed.

(** C6, as the claim is worded, fails on the seed store: get_item finds
    item 1 although no create has produced that id. *)
Lemma seed_item_found_without_create :
  (∃ i, fst (get_item 1 (final [] items_db)) = inr i) ∧
  ¬ created_and_kept (history [] items_db) 1.
Proof. split; [by eexists | apply created_and_kept_nil]. Qed.

(** ** Reuse of ids *)

Section Reuse.
Implicit Types (db : store) (r : request) (rs : list request) (n m : Z).

Lemma dispatch_below_stored r db n :
  NoDup (ids db) → deletes_max r db = false →
  below_stored db n ∨ Removed n ∈ event_of r (fst (dispatch r db)) →
  below_stored (snd (dispatch r db)) n.
Proof.
  intros Hnd Hmax Hn. unfold below_stored in *.
  destruct (dispatch_cases r db Hnd)
    as [[Hev Hids] | [[Hev Hids] | (k & -> & Hk & Hev & Hids)]];
    rewrite Hev in Hn.
  - rewrite Hids. destruct Hn as [Hn | Hn]; [done |].
    by apply not_elem_of_nil in Hn.
  - rewrite Hids. destruct Hn as [(m & Hm & Hlt) | Hn].
    + exists m. rewrite elem_of_app. auto.
    + apply list_elem_of_singleton in Hn. discriminate.
  - simpl in Hmax. apply bool_decide_eq_false in Hmax.
    assert (ids db ≠ []) as Hne by (intros Hnil; rewrite Hnil in Hk; inv Hk).
    set (M := max_default (ids db) 0) in *.
    assert (k ≠ M) as HkM by tauto.
    pose proof (max_default_elem (ids db) 0 Hne) as HM.
    pose proof (max_default_ge (ids db) 0 k Hk) as HkleM.
    fold M in HM, HkleM.
    assert (M ∈ ids (snd (dispatch (DELETE_item k) db))) as HM1.
    { apply Hids. split; [done | congruence]. }
    destruct Hn as [(m & Hm & Hlt) | Hn].
    + destruct (decide (m = k)) as [-> | Hmk].
      * exists M. split; [done | lia].
      * exists m. split; [| done]. by apply Hids.
    + apply list_elem_of_singleton in Hn. simplify_eq.
      exists M. split; [done | lia].
Qed.

Lemma removed_below_stored rs db (D : Z → Prop) :
  NoDup (ids db) → spares_max rs db = true →
  (∀ n, D n → below_stored db n) →
  ∀ n, D n ∨ Removed n ∈ history rs db → below_stored (final rs db) n.
Proof.
  revert db D. induction rs as [|r rs IH]; intros db D Hnd Hsp HD n Hn.
  - rewrite final_nil. destruct Hn as [Hn | Hn]; [by apply HD |].
    by apply not_elem_of_nil in Hn.
  - simpl in Hsp. apply andb_true_iff in Hsp as [Hr%negb_true_iff Hsp].
    rewrite final_cons. rewrite history_cons, elem_of_app in Hn.
    apply (IH _ (λ n, D n ∨ Removed n ∈ event_of r (fst (dispatch r db))));
      [by apply dispatch_NoDup | done | | tauto].
    intros n' Hn'. apply dispatch_below_stored; [done | done |].
    destruct Hn' as [Hn' | Hn']; [left; by apply HD | by right].
Qed.
End Reuse.

(** C5, as the code has it: create_item assigns one more than the highest
    id now in the store.  After any list of requests served from the seed
    store in which no delete removed the item holding the highest id of
    the moment, the id that a create assigns is not the id of any item
    deleted during the run. *)
Theorem ids_not_reused_if_max_spared (rs : list request) (X : ItemCreate.t) :
  spares_max rs items_db = true →
  ∃ new,
    fst (create_item X (final rs items_db)) = inr new ∧
    Item.id new = max_default (ids (final rs items_db)) 0 + 1 ∧
    Removed (Item.id new) ∉ history rs items_db.
Proof.
  intros Hsp. eexists. split_and!; [done | done |]. simpl. intros Hrem.
  destruct (removed_below_stored rs items_db (λ _, False) items_db_NoDup Hsp)
    with (n := max_default (ids (final rs items_db)) 0 + 1)
    as (m & Hm & Hlt); [done | by right |].
  apply (max_default_ge _ 0) in Hm. lia.
Qed.

Lemma ids_not_reused_if_max_spared_witness :
  spares_max
    [DELETE_item 2; POST_items (ItemCreate.init "Monitor" None 350.00%float None);
     DELETE_item 1]
    items_db = true ∧
  ∃ new,
    fst (create_item (ItemCreate.init "Tablet" None 400.00%float None)
           (final
              [DELETE_item 2;
               POST_items (ItemCreate.init "Monitor" None 350.00%float None);
               DELETE_item 1]
              items_db))
    = inr new ∧
    Item.id new
    = max_default
        (ids (final
                [DELETE_item 2;
                 POST_items (ItemCreate.init "Monitor" None 350.00%float None);
                 DELETE_item 1]
                items_db)) 0 + 1 ∧
    Removed (Item.id new)
    ∉ history
        [DELETE_item 2; POST_items (ItemCreate.init "Monitor" None 350.00%float None);
         DELETE_item 1]
        items_db.
Proof.
  split; [vm_compute; reflexivity |].
  apply ids_not_reused_if_max_spared. vm_compute. reflexivity.
Defined.

(** C5, as the claim is worded, fails: once the item with the highest id
    has been deleted from the seed store, the next create assigns that
    very id again. *)
Lemma deleted_max_id_is_reused :
  fst (create_item (ItemCreate.init "Monitor" None 350.00%float None)
         (final [DELETE_item 3] items_db))
  = inr (Item.Build 3 "Monitor" None 350.00%float true) ∧
  Removed 3 ∈ history [DELETE_item 3] items_db.
Proof. split; [reflexivity | vm_compute; left]. Qed.

(** ** The handlers, one item at a time

    The three loops unrolled by one iteration: what each handler does on a
    store whose first item is [x]. *)

Section Unrolled.
Implicit Types (db : store) (x : Item.t) (n : Z).

Lemma scan_cons n x db :
  scan n (x :: db)
  = if decide (Item.id x = n) then Some (0%nat, x)
    else prod_map S id <$> scan n db.
Proof. reflexivity. Qed.

Lemma get_item_cons n x db :
  fst (get_item n (x :: db))
  = if decide (Item.id x = n) then inr x else fst (get_item n db).
Proof.
  unfold get_item. rewrite scan_cons. case_decide; [done |].
  by destruct (scan n db) as [[??]|].
Qed.

Lemma update_item_cons n item x db :
  update_item n item (x :: db)
  = if decide (Item.id x = n)
    then (inr (Item_of n item), Item_of n item :: db)
    else (fst (update_item n item db), x :: snd (update_item n item db)).
Proof.
  unfold update_item. rewrite scan_cons. case_decide; [done |].
  by destruct (scan n db) as [[??]|].
Qed.

Lemma delete_item_cons n x db :
  delete_item n (x :: db)
  = if decide (Item.id x = n)
    then (inr (mkDeleted ("Item " +:+ pretty n +:+ " deleted successfully") x), db)
    else (fst (delete_item n db), x :: snd (delete_item n db)).
Proof.
  unfold delete_item, pop. rewrite scan_cons. case_decide; [done |].
  destruct (scan n db) as [[idx ?]|]; simpl; [| done].
  by destruct (db !! idx).
Qed.

Lemma get_item_store n db : snd (get_item n db) = db.
Proof. unfold get_item. by destruct (scan n db) as [[??]|]. Qed.
End Unrolled.

(** ** What the handlers return *)

(** X1: get_item answers with an item exactly when that item is the first
    one, in list order, that carries the requested id; later items with the
    same id are never returned. *)
Theorem get_item_returns_first_match (db : store) (item_id : Z) (x : Item.t) :
  fst (get_item item_id db) = inr x
  ↔ ∃ l1 l2, db = l1 ++ x :: l2 ∧ Item.id x = item_id ∧ item_id ∉ ids l1.
Proof.
  split.
  - unfold get_item. destruct (scan item_id db) as [[idx y]|] eqn:Hscan; [| done].
    intros [= ->]. apply scan_Some in Hscan as (l1 & l2 & ? & ? & ? & ?). eauto.
  - intros (l1 & l2 & -> & <- & Hl1). by rewrite get_item_middle.
Qed.

(** X2: when the requested id is stored, delete_item removes the first
    item carrying it and nothing else, keeps the order of the others, and
    returns the removed item (the one get_item would have returned) with
    the message "Item <id> deleted successfully". *)
Theorem delete_item_removes_first_match (db : store) (item_id : Z) :
  item_id ∈ ids db →
  ∃ l1 x l2,
    db = l1 ++ x :: l2 ∧ Item.id x = item_id ∧ (item_id ∉ ids l1) ∧
    fst (get_item item_id db) = inr x ∧
    delete_item item_id db
    = (inr (mkDeleted ("Item " +:+ pretty item_id +:+ " deleted successfully") x),
       l1 ++ l2).
Proof.
  intros (l1 & x & l2 & -> & <- & Hl1)%split_at_id.
  exists l1, x, l2. split_and!; try done.
  - by rewrite get_item_middle.
  - by rewrite delete_item_middle.
Qed.

Lemma delete_item_removes_first_match_witness :
  2 ∈ ids items_db ∧
  ∃ l1 x l2,
    items_db = l1 ++ x :: l2 ∧ Item.id x = 2 ∧ (2 ∉ ids l1) ∧
    fst (get_item 2 items_db) = inr x ∧
    delete_item 2 items_db
    = (inr (mkDeleted ("Item " +:+ pretty 2 +:+ " deleted successfully") x),
       l1 ++ l2).
Proof.
  split.
  - vm_compute. right. left.
  - apply (delete_item_removes_first_match items_db 2). vm_compute. right. left.
Defined.



(** ** Reading after writing *)

Lemma get_item_skip (l1 : store) (y : Item.t) (l2 : store) (j : Z) :
  Item.id y ≠ j →
  fst (get_item j (l1 ++ y :: l2)) = fst (get_item j (l1 ++ l2)).
Proof.
  intros Hy. induction l1 as [|x l1 IH]; simpl.
  - rewrite get_item_cons. by case_decide.
  - rewrite !get_item_cons. by case_decide.
Qed.

(** X4: after update_item, get_item on the updated id returns the new
    item if the id was stored, and get_item on every other id answers
    exactly as it did before the update. *)
Theorem get_after_update (db : store) (item_id : Z) (item : ItemCreate.t) (j : Z) :
  fst (get_item j (snd (update_item item_id item db)))
  = if decide (j = item_id ∧ item_id ∈ ids db)
    then inr (Item_of item_id item)
    else fst (get_item j db).
Proof.
  destruct (decide (item_id ∈ ids db)) as [Hin | Hnin].
  - apply split_at_id in Hin as Hsplit.
    destruct Hsplit as (l1 & x & l2 & -> & <- & Hl1).
    rewrite update_item_middle by done. cbn [snd].
    destruct (decide (j = Item.id x)) as [-> | Hj].
    + rewrite decide_True by done.
      pose proof (get_item_middle l1 (Item_of (Item.id x) item) l2 Hl1) as Hget.
      cbn [Item.id Item_of] in Hget. by rewrite Hget.
    + rewrite decide_False by tauto.
      rewrite !get_item_skip; [done | congruence | simpl; congruence].
  - rewrite update_item_absent by done. by rewrite decide_False by tauto.
Qed.

(** X5: after create_item, get_item on the new id returns the created
    item and get_item on every other id answers exactly as it did before:
    a create never hides or changes an item already stored. *)
Theorem get_after_create (db : store) (X : ItemCreate.t) (j : Z) :
  fst (get_item j (snd (create_item X db)))
  = if decide (j = max_default (ids db) 0 + 1)
    then inr (Item_of j X)
    else fst (get_item j db).
Proof.
  unfold create_item. cbn [snd]. case_decide as Hj.
  - subst j.
    pose proof (get_item_middle db (Item_of (max_default (ids db) 0 + 1) X) []
                  (new_id_fresh db)) as Hget.
    cbn [Item.id Item_of] in Hget. by rewrite Hget.
  - rewrite get_item_skip by (simpl; congruence). by rewrite app_nil_r.
Qed.

(** X6: delete_item leaves the answers of get_item for every other id as
    they were, on any store. *)
Theorem delete_item_keeps_other_ids (db : store) (item_id j : Z) :
  j ≠ item_id →
  fst (get_item j (snd (delete_item item_id db))) = fst (get_item j db).
Proof.
  intros Hj. destruct (decide (item_id ∈ ids db)) as [Hin | Hnin].
  - apply split_at_id in Hin as (l1 & x & l2 & -> & <- & Hl1).
    rewrite delete_item_middle by done. cbn [snd].
    by rewrite get_item_skip by congruence.
  - by rewrite delete_item_absent.
Qed.

Lemma delete_item_keeps_other_ids_witness :
  3 ≠ 1 ∧
  fst (get_item 3 (snd (delete_item 1 items_db))) = fst (get_item 3 items_db).
Proof.
  split; [lia |]. apply (delete_item_keeps_other_ids items_db 1 3). lia.
Defined.

(** X7: on a store whose ids are pairwise distinct, a delete erases the
    id: afterwards get_item and update_item answer 404 for it and leave
    the store alone, and the stored ids are the old ones without it. *)
Theorem delete_item_erases_id (db : store) (item_id : Z) (item : ItemCreate.t) :
  NoDup (ids db) →
  let db' := snd (delete_item item_id db) in
  get_item item_id db' = (inl (not_found item_id), db') ∧
  update_item item_id item db' = (inl (not_found item_id), db') ∧
  ∀ j, j ∈ ids db' ↔ j ∈ ids db ∧ j ≠ item_id.
Proof.
  intros Hnd db'. destruct (ids_delete_item db item_id Hnd) as [_ Hids].
  fold db' in Hids.
  assert (item_id ∉ ids db') as Hgone by (rewrite Hids; tauto).
  split_and!; [by apply get_item_absent | by apply update_item_absent | done].
Qed.

Lemma delete_item_erases_id_witness :
  NoDup (ids items_db) ∧
  let db' := snd (delete_item 1 items_db) in
  get_item 1 db' = (inl (not_found 1), db') ∧
  update_item 1 (ItemCreate.init "Ghost Item" None 100.00%float None) db'
  = (inl (not_found 1), db') ∧
  ∀ j, j ∈ ids db' ↔ j ∈ ids items_db ∧ j ≠ 1.
Proof.
  split; [apply items_db_NoDup |].
  apply (delete_item_erases_id items_db 1), items_db_NoDup.
Defined.

(** X8: on a store whose ids are pairwise distinct, every stored item can
    be fetched by its own id: get_item returns that very item, so a
    listing and the single-item route agree. *)
Theorem listed_item_is_fetched (db : store) (x : Item.t) :
  NoDup (ids db) → x ∈ db → get_item (Item.id x) db = (inr x, db).
Proof.
  intros Hnd (l1 & l2 & ->)%list_elem_of_split.
  apply get_item_middle. rewrite ids_app in Hnd.
  apply NoDup_app in Hnd as (_ & Hdisj & _). intros Hin.
  apply (Hdisj _ Hin). left.
Qed.

Lemma listed_item_is_fetched_witness :
  NoDup (ids items_db) ∧
  Item.Build 2 "Mouse" (Some "Wireless mouse") 25.00%float true ∈ items_db ∧
  get_item 2 items_db
  = (inr (Item.Build 2 "Mouse" (Some "Wireless mouse") 25.00%float true), items_db).
Proof.
  assert (Item.Build 2 "Mouse" (Some "Wireless mouse") 25.00%float true ∈ items_db)
    as Hin by (right; left).
  split_and!; [apply items_db_NoDup | exact Hin |].
  exact (listed_item_is_fetched items_db _ items_db_NoDup Hin).
Defined.

(** ** Writes composed *)

Section Compose.
Implicit Types (db : store) (x : Item.t) (i j n : Z) (A B : ItemCreate.t).

Lemma update_item_nil n A : update_item n A [] = (inl (not_found n), []).
Proof. reflexivity. Qed.

Lemma delete_item_nil n : delete_item n [] = (inl (not_found n), []).
Proof. reflexivity. Qed.

Lemma update_update_commute db i j A B :
  i ≠ j →
  snd (update_item i A (snd (update_item j B db)))
  = snd (update_item j B (snd (update_item i A db))).
Proof.
  intros Hij. induction db as [|x db IH]; [done |].
  rewrite (update_item_cons j B x db), (update_item_cons i A x db).
  destruct (decide (Item.id x = j)) as [Hj | Hj],
           (decide (Item.id x = i)) as [Hi | Hi];
    cbn [snd]; rewrite !update_item_cons; cbn [Item.id Item_of];
    repeat case_decide; try congruence; cbn [snd]; congruence.
Qed.

Lemma delete_delete_commute db i j :
  i ≠ j →
  snd (delete_item i (snd (delete_item j db)))
  = snd (delete_item j (snd (delete_item i db))).
Proof.
  intros Hij. induction db as [|x db IH]; [done |].
  rewrite (delete_item_cons j x db), (delete_item_cons i x db).
  destruct (decide (Item.id x = j)) as [Hj | Hj],
           (decide (Item.id x = i)) as [Hi | Hi];
    cbn [snd]; rewrite ?delete_item_cons;
    repeat case_decide; try congruence; cbn [snd]; congruence.
Qed.

Lemma delete_update_commute db i j B :
  i ≠ j →
  snd (delete_item i (snd (update_item j B db)))
  = snd (update_item j B (snd (delete_item i db))).
Proof.
  intros Hij. induction db as [|x db IH]; [done |].
  rewrite (update_item_cons j B x db), (delete_item_cons i x db).
  destruct (decide (Item.id x = j)) as [Hj | Hj],
           (decide (Item.id x = i)) as [Hi | Hi];
    cbn [snd]; rewrite ?delete_item_cons, ?update_item_cons; cbn [Item.id Item_of];
    repeat case_decide; try congruence; cbn [snd]; congruence.
Qed.
End Compose.

(** X9: writes aimed at two different ids can be served in either order:
    two updates, two deletes, or an update and a delete leave the same
    store whichever comes first. *)
Theorem writes_to_distinct_ids_commute (db : store) (i j : Z) (A B : ItemCreate.t) :
  i ≠ j →
  snd (update_item i A (snd (update_item j B db)))
  = snd (update_item j B (snd (update_item i A db))) ∧
  snd (delete_item i (snd (delete_item j db)))
  = snd (delete_item j (snd (delete_item i db))) ∧
  snd (delete_item i (snd (update_item j B db)))
  = snd (update_item j B (snd (delete_item i db))).
Proof.
  intros Hij. split_and!.
  - by apply update_update_commute.
  - by apply delete_delete_commute.
  - by apply delete_update_commute.
Qed.

Lemma writes_to_distinct_ids_commute_witness :
  1 ≠ 3 ∧
  snd (update_item 1 (ItemCreate.init "Desktop" None 900.00%float None)
         (snd (update_item 3 (ItemCreate.init "Keypad" None 20.00%float None) items_db)))
  = snd (update_item 3 (ItemCreate.init "Keypad" None 20.00%float None)
           (snd (update_item 1 (ItemCreate.init "Desktop" None 900.00%float None) items_db))) ∧
  snd (delete_item 1 (snd (delete_item 3 items_db)))
  = snd (delete_item 3 (snd (delete_item 1 items_db))) ∧
  snd (delete_item 1
         (snd (update_item 3 (ItemCreate.init "Keypad" None 20.00%float None) items_db)))
  = snd (update_item 3 (ItemCreate.init "Keypad" None 20.00%float None)
           (snd (delete_item 1 items_db))).
Proof.
  split; [lia |]. apply (writes_to_distinct_ids_commute items_db 1 3). lia.
Defined.

(** X10: writes aimed at the same id: of two updates in a row only the
    second counts (response and store), and a delete after an update
    leaves the store a plain delete would have left. *)
Theorem writes_to_same_id_compose (db : store) (n : Z) (A B : ItemCreate.t) :
  update_item n B (snd (update_item n A db)) = update_item n B db ∧
  snd (delete_item n (snd (update_item n A db))) = snd (delete_item n db).
Proof.
  destruct (decide (n ∈ ids db)) as [Hin | Hnin].
  - apply split_at_id in Hin as (l1 & x & l2 & -> & <- & Hl1).
    pose proof (update_item_middle l1 (Item_of (Item.id x) A) l2 B Hl1) as Hup.
    pose proof (delete_item_middle l1 (Item_of (Item.id x) A) l2 Hl1) as Hdel.
    cbn [Item.id Item_of] in Hup, Hdel.
    rewrite !update_item_middle, delete_item_middle by done. cbn [snd].
    by rewrite Hup, Hdel.
  - rewrite (update_item_absent db n A) by done. cbn [snd]. by split.
Qed.

(** X11: the life of one item: on any store, creating an item, updating
    it under the id the create returned and deleting that id leaves the
    store exactly as it was before the create; the delete hands back the
    updated item, and the id is unknown again afterwards. *)
Theorem create_update_delete_restores (db : store) (X Y : ItemCreate.t) :
  let new_id := max_default (ids db) 0 + 1 in
  let db1 := snd (create_item X db) in
  let db2 := snd (update_item new_id Y db1) in
  fst (create_item X db) = inr (Item_of new_id X) ∧
  fst (update_item new_id Y db1) = inr (Item_of new_id Y) ∧
  delete_item new_id db2
  = (inr (mkDeleted ("Item " +:+ pretty new_id +:+ " deleted successfully")
            (Item_of new_id Y)), db) ∧
  snd (delete_item new_id db1) = db ∧
  get_item new_id db = (inl (not_found new_id), db).
Proof.
  intros new_id db1 db2.
  pose proof (new_id_fresh db) as Hfresh. fold new_id in Hfresh.
  pose proof (update_item_middle db (Item_of new_id X) [] Y Hfresh) as Hup.
  pose proof (delete_item_middle db (Item_of new_id Y) [] Hfresh) as Hdel2.
  pose proof (delete_item_middle db (Item_of new_id X) [] Hfresh) as Hdel1.
  cbn [Item.id Item_of] in Hup, Hdel1, Hdel2. rewrite app_nil_r in Hdel1, Hdel2.
  assert (db1 = db ++ [Item_of new_id X]) as Hdb1 by done.
  assert (db2 = db ++ [Item_of new_id Y]) as Hdb2.
  { unfold db2. by rewrite Hdb1, Hup. }
  split_and!.
  - done.
  - by rewrite Hdb1, Hup.
  - by rewrite Hdb2.
  - by rewrite Hdb1, Hdel1.
  - by apply get_item_absent.
Qed.

(** ** Size and order of the store along a run *)

Section Accounting.
Implicit Types (db : store) (r : request) (rs : list request) (h : list event).

Lemma net_app h h' : net (h ++ h') = net h + net h'.
Proof. induction h as [|e h IH]; simpl; [done |]. rewrite IH. lia. Qed.

Lemma dispatch_size r db :
  Z.of_nat (length (snd (dispatch r db)))
  = Z.of_nat (length db) + net (event_of r (fst (dispatch r db))).
Proof.
  destruct r as [| n | item | n item | n]; unfold dispatch;
    rewrite fst_respond, snd_respond.
  - simpl. lia.
  - rewrite get_item_store. destruct (fst (get_item n db)); simpl; lia.
  - unfold create_item. cbn [fst snd]. rewrite length_app. simpl. lia.
  - assert (length (snd (update_item n item db)) = length db) as ->.
    { unfold update_item. destruct (scan n db) as [[idx ?]|]; [| done].
      apply length_insert. }
    destruct (fst (update_item n item db)); simpl; lia.
  - destruct (decide (n ∈ ids db)) as [Hin | Hnin].
    + apply split_at_id in Hin as (l1 & x & l2 & -> & <- & Hl1).
      rewrite delete_item_middle by done. cbn [fst snd].
      rewrite !length_app. simpl. lia.
    + rewrite delete_item_absent by done. simpl. lia.
Qed.

Lemma dispatch_increasing r db :
  StronglySorted Z.lt (ids db) ∧ Forall (λ n, 1 ≤ n) (ids db) →
  StronglySorted Z.lt (ids (snd (dispatch r db))) ∧
  Forall (λ n, 1 ≤ n) (ids (snd (dispatch r db))).
Proof.
  intros [Hsorted Hpos].
  destruct r as [| n | item | n item | n]; unfold dispatch; rewrite snd_respond.
  - done.
  - by rewrite get_item_store.
  - rewrite ids_create_item. split.
    + apply StronglySorted_app. split_and!; [| done | repeat constructor].
      intros a b Ha ->%list_elem_of_singleton.
      apply (max_default_ge _ 0) in Ha. lia.
    + apply Forall_app. split; [done |]. constructor; [| constructor].
      pose proof (max_default_spec (ids db) 0) as Hmax.
      destruct (ids db) as [|a l]; unfold is_max_default in Hmax; [lia |].
      destruct Hmax as [Hin _]. rewrite Forall_forall in Hpos.
      apply Hpos in Hin. lia.
  - by rewrite ids_update_item.
  - destruct (decide (n ∈ ids db)) as [Hin | Hnin].
    + apply split_at_id in Hin as (l1 & x & l2 & -> & <- & Hl1).
      rewrite delete_item_middle by done. cbn [snd].
      rewrite ids_app in *. change (ids (x :: l2)) with (Item.id x :: ids l2) in *.
      apply StronglySorted_app in Hsorted as (Hlt & Hs1 & [Hx Hs2]%StronglySorted_cons).
      apply Forall_app in Hpos as [Hp1 [_ Hp2]%Forall_cons]. split.
      * apply StronglySorted_app. split_and!; [| done | done].
        intros a b Ha Hb. apply Hlt; [done | by right].
      * by apply Forall_app.
    + by rewrite delete_item_absent.
Qed.
End Accounting.

(** X12: the size of the store after any list of requests, served on any
    store, is the initial size plus the number of creates minus the number
    of deletes that succeeded; reads, updates and failed requests do not
    change it. *)
Theorem store_size_accounting (rs : list request) (db : store) :
  Z.of_nat (length (final rs db))
  = Z.of_nat (length db) + net (history rs db).
Proof.
  revert db. induction rs as [|r rs IH]; intros db.
  - rewrite final_nil. simpl. lia.
  - rewrite final_cons, history_cons, net_app, IH, dispatch_size. lia.
Qed.

(** X13: after any list of requests served from the seed store, the ids
    in list order (the order of a listing) are strictly increasing and all
    at least 1. *)
Theorem ids_increasing_invariant (rs : list request) :
  StronglySorted Z.lt (ids (final rs items_db)) ∧
  Forall (λ n, 1 ≤ n) (ids (final rs items_db)).
Proof.
  assert (StronglySorted Z.lt (ids items_db) ∧ Forall (λ n, 1 ≤ n) (ids items_db))
    as Hseed.
  { split; by apply (bool_decide_unpack _). }
  revert Hseed. generalize items_db.
  induction rs as [|r rs IH]; intros db Hdb; [done |].
  rewrite final_cons. by apply IH, dispatch_increasing.
Qed.

(** ** The next id *)

Lemma max_default_intro (xs : list Z) (d m : Z) :
  m ∈ xs → Forall (λ x, x ≤ m) xs → max_default xs d = m.
Proof.
  intros Hin Hle. apply (is_max_default_unique xs d); [apply max_default_spec |].
  destruct xs as [|x xs]; [by apply not_elem_of_nil in Hin | done].
Qed.

Lemma max_default_snoc_next (xs : list Z) :
  max_default (xs ++ [max_default xs 0 + 1]) 0 = max_default xs 0 + 1.
Proof.
  apply max_default_intro.
  - rewrite elem_of_app, list_elem_of_singleton. by right.
  - apply Forall_app. split; [| repeat constructor; lia].
    apply Forall_forall. intros x Hx%(max_default_ge _ 0). lia.
Qed.

(** X14: the id a create hands out depends only on the ids now stored:
    two creates in a row get consecutive ids, and an update in between,
    found or not, does not move the next id. *)
Theorem next_id_after_create_and_update (db : store) (X Y A : ItemCreate.t) (n : Z) :
  (∃ a b,
      fst (create_item X db) = inr a ∧
      fst (create_item Y (snd (create_item X db))) = inr b ∧
      Item.id b = Item.id a + 1) ∧
  fst (create_item X (snd (update_item n A db))) = fst (create_item X db).
Proof.
  split.
  - do 2 eexists. split_and!; [done | done |]. cbn [Item.id Item_of].
    rewrite ids_create_item. by rewrite max_default_snoc_next.
  - unfold create_item. cbn [fst]. by rewrite ids_update_item.
Qed.

(** X15: deleting an id other than the highest one stored does not move
    the next id: the create that follows gets the id it would have got
    without the delete. *)
Theorem delete_below_max_keeps_next_id (db : store) (n : Z) (X : ItemCreate.t) :
  n ≠ max_default (ids db) 0 →
  fst (create_item X (snd (delete_item n db))) = fst (create_item X db).
Proof.
  intros Hn. destruct (decide (n ∈ ids db)) as [Hin | Hnin];
    [| by rewrite delete_item_absent].
  assert (ids db ≠ []) as Hne by (intros Hnil; rewrite Hnil in Hin; inv Hin).
  pose proof (max_default_elem (ids db) 0 Hne) as HM.
  assert (Forall (λ x, x ≤ max_default (ids db) 0) (ids db)) as Hle.
  { apply Forall_forall. intros x. apply max_default_ge. }
  set (M := max_default (ids db) 0) in *.
  assert (max_default (ids (snd (delete_item n db))) 0 = M) as Heq.
  { apply split_at_id in Hin as (l1 & x & l2 & Hdb & Hx & Hl1). subst db n.
    rewrite delete_item_middle by done. cbn [snd].
    rewrite ids_app in *. change (ids (x :: l2)) with (Item.id x :: ids l2) in *.
    apply max_default_intro.
    - rewrite elem_of_app, elem_of_cons in HM. rewrite elem_of_app.
      destruct HM as [HM | [HM | HM]]; [by left | congruence | by right].
    - apply Forall_app in Hle as [Hl [_ Hr]%Forall_cons]. by apply Forall_app. }
  unfold create_item. cbn [fst]. fold M. by rewrite Heq.
Qed.

Lemma delete_below_max_keeps_next_id_witness :
  1 ≠ max_default (ids items_db) 0 ∧
  fst (create_item (ItemCreate.init "Monitor" None 350.00%float None)
         (snd (delete_item 1 items_db)))
  = fst (create_item (ItemCreate.init "Monitor" None 350.00%float None) items_db).
Proof.
  assert (1 ≠ max_default (ids items_db) 0) as H by (vm_compute; discriminate).
  split; [exact H | exact (delete_below_max_keeps_next_id items_db 1 _ H)].
Defined.
